(** * hardware.c: locating and loading a HAL module

    A shallow embedding of [load] and [hw_get_module] from
    [hardware.c], together with the properties of the variant search:
    priority order, identity check, release of handles on failure.

    Conventions.
    - A C string is represented by the characters that precede its
      terminating NUL, as a [string].
    - A nullable pointer is an [option]: [None] is [NULL].
    - [int] values are in [Z]; the only ones that occur are [0] and
      [-EINVAL].
    - The configuration store ([property_get]) and the dynamic loader
      ([dlopen], [dlsym], [dlerror], [dlclose]) are external.  They are
      modelled by a [world] (what the store and the library directory
      contain) and a [sys] state (the handles currently open, and the
      trace of the calls made so far).
    - [LOGV] and [LOGE] only write diagnostics; they are left out. *)

From stdpp Require Import base decidable option list strings gmap.
From Stdlib Require Import ZArith.

Local Open Scope Z_scope.

(** ** Constants *)

(** Base path of the hal modules. *)
Definition HAL_LIBRARY_PATH : string := "/system/lib/hw".

Definition HAL_DEFAULT_VARIANT : string := "default".

Definition HAL_VARIANT_KEYS_COUNT : nat := 3.

Definition variant_keys : list string :=
  [ "ro.product.board"; "ro.arch"; HAL_DEFAULT_VARIANT ].

(** [EINVAL] of <errno.h>. *)
Definition EINVAL : Z := 22.

(** [PATH_MAX] of <limits.h>: the size of the [path] and [variant]
    buffers. *)
Definition PATH_MAX : nat := 4096.

(** Modelled from the spec: [HAL_MODULE_INFO_SYM_AS_STR] is defined in
    <hardware/hardware.h>, which is not among the sources.  It is the
    fixed, well-known name of the symbol every module exports for its
    descriptor. *)
Definition HAL_MODULE_INFO_SYM_AS_STR : string := "HMI".

(** ** Data *)

(** Modelled from the spec: [struct hw_module_t] is declared in
    <hardware/hardware.h>, which is not among the sources.  The code
    reads its [id] field only; [name] stands for the fields that tell
    two descriptors with the same [id] apart. *)
Record hw_module_t : Type := Build_hw_module_t {
  id : string;
  name : string
}.

(** A loadable shared object: the address it is mapped at, which is
    the value [dlopen] hands out for it, and the descriptors it
    exports, by symbol name.  A non-null [void *] handle is modelled
    by the [library] it refers to. *)
Record library : Type := Build_library {
  base : N;
  exports : gmap string hw_module_t
}.


(** What is outside the program and does not change during a call:
    the configuration store, the files [dlopen] can load, and the
    value an automatic pointer variable holds before it is assigned. *)
Record world : Type := Build_world {
  props : gmap string string;
  files : gmap string library;
  indeterminate : option hw_module_t
}.

Inductive dl_flag : Type := RTLD_NOW.

(** Calls to the external collaborators, in the order they happen. *)
Inductive event : Type :=
| property_get_call (key : string)
| dlopen_call (path : string) (flag : dl_flag)
| dlsym_call (h : library) (sym : string)
| dlerror_call
| dlclose_call (h : library).

(** The loader's state: one entry per reference held on an open
    library ([dlopen] on a library already open adds a reference), and
    the calls made so far. *)
Record sys : Type := Build_sys {
  open : list library;
  trace : list event
}.

Definition initial_sys : sys := {| open := []; trace := [] |}.

(** ** A state monad over [sys] *)

Definition M (A : Type) : Type := sys → A * sys.

#[global] Instance M_ret : MRet M := λ A (a : A) (s : sys), (a, s).

#[global] Instance M_bind : MBind M :=
  λ A B (f : A → M B) (m : M A) (s : sys), let '(a, s') := m s in f a s'.

Definition emit (e : event) : M unit :=
  λ s, (tt, {| open := open s; trace := trace s ++ [e] |}).

Definition get_open : M (list library) := λ s, (open s, s).

Definition put_open (l : list library) : M unit :=
  λ s, (tt, {| open := l; trace := trace s |}).

(** ** String functions of the C library *)

(** [strcmp]: the C standard fixes the sign of the result only. *)
Fixpoint strcmp (s1 s2 : string) : Z :=
  match s1, s2 with
  | EmptyString, EmptyString => 0
  | EmptyString, String _ _ => -1
  | String _ _, EmptyString => 1
  | String c1 r1, String c2 r2 =>
      match N.compare (Ascii.N_of_ascii c1) (Ascii.N_of_ascii c2) with
      | Eq => strcmp r1 r2
      | Lt => -1
      | Gt => 1
      end
  end.

(** What a buffer of [size] bytes holds after a bounded copy of [s]:
    at most [size - 1] characters, then the terminator. *)
Definition truncate (size : nat) (s : string) : string :=
  String.substring 0 (size - 1) s.

(** [strncpy(dst, src, sizeof(dst)-1); dst[sizeof(dst)-1] = 0]. *)
Definition strncpy_buf (size : nat) (src : string) : string :=
  truncate size src.

(** [snprintf(path, sizeof(path), "%s/%s.%s.so", dir, id, variant)]. *)
Definition snprintf_path (size : nat) (dir id variant : string) : string :=
  truncate size (dir +:+ "/" +:+ id +:+ "." +:+ variant +:+ ".so").

(** ** The external collaborators *)

(** [property_get(key, value, NULL)]: the length of the value and the
    contents of the [value] buffer; an absent key gives length 0 and
    an empty buffer. *)
Definition property_get (w : world) (key : string) : M (Z * string) :=
  _ ← emit (property_get_call key);
  match props w !! key with
  | Some v => mret (Z.of_nat (String.length v), v)
  | None => mret (0, EmptyString)
  end.

Definition dlopen (w : world) (path : string) (flag : dl_flag)
  : M (option library) :=
  _ ← emit (dlopen_call path flag);
  match files w !! path with
  | Some lib =>
      l ← get_open;
      _ ← put_open (lib :: l);
      mret (Some lib)
  | None => mret None
  end.

Definition dlsym (h : library) (sym : string) : M (option hw_module_t) :=
  _ ← emit (dlsym_call h sym);
  mret (exports h !! sym).

Definition dlerror : M unit := emit dlerror_call.

(** Drops one reference on the library mapped at [b]. *)
Fixpoint release (b : N) (l : list library) : list library :=
  match l with
  | [] => []
  | h :: l' => if N.eqb (base h) b then l' else h :: release b l'
  end.

Definition dlclose (h : library) : M unit :=
  _ ← emit (dlclose_call h);
  l ← get_open;
  put_open (release (base h) l).

(** ** [load] *)

(** The automatic variables of [load]. *)
Record load_vars : Type := Build_load_vars {
  load_status : Z;
  load_handle : option library;
  load_hmi : option hw_module_t
}.

(** The body of [load] up to the label [done]. *)
Definition load_body (w : world) (id_ path : string) : M load_vars :=
  handle ← dlopen w path RTLD_NOW;
  match handle with
  | None =>
      _ ← dlerror;
      mret {| load_status := - EINVAL; load_handle := None;
              load_hmi := indeterminate w |}
  | Some h =>
      hmi ← dlsym h HAL_MODULE_INFO_SYM_AS_STR;
      match hmi with
      | None =>
          _ ← dlerror;
          mret {| load_status := - EINVAL; load_handle := Some h;
                  load_hmi := None |}
      | Some m =>
          if negb (strcmp id_ (id m) =? 0) then
            mret {| load_status := - EINVAL; load_handle := Some h;
                    load_hmi := Some m |}
          else
            mret {| load_status := 0; load_handle := Some h;
                    load_hmi := Some m |}
      end
  end.

(** From the label [done] to the stores through [pHmi] and [pHandle]. *)
Definition load_done (v : load_vars) : M load_vars :=
  if negb (load_status v =? 0) then
    match load_handle v with
    | Some h =>
        _ ← dlclose h;
        mret {| load_status := load_status v; load_handle := None;
                load_hmi := None |}
    | None =>
        mret {| load_status := load_status v; load_handle := None;
                load_hmi := None |}
    end
  else mret v.

(** The result of [load]: the returned status and the values stored
    through [pHandle] and [pHmi]. *)
Record load_result : Type := Build_load_result {
  load_ret : Z;
  pHandle : option library;
  pHmi : option hw_module_t
}.

Definition load (w : world) (id_ path : string) : M load_result :=
  v ← load_body w id_ path;
  v ← load_done v;
  mret {| load_ret := load_status v; pHandle := load_handle v;
          pHmi := load_hmi v |}.

(** ** [hw_get_module] *)

(** The automatic variables of [hw_get_module] that outlive one turn
    of the loop.  [path] and [variant] are written afresh in every
    turn before they are read; [i] is the position in [variant_keys]. *)
Record module_vars : Type := Build_module_vars {
  status : Z;
  hmi : option hw_module_t;
  handle : option library
}.

(** The loop [for (i = 0; (status != 0) && (i < HAL_VARIANT_KEYS_COUNT); i++)],
    started with the entries [variant_keys[i..]] still to visit. *)
Fixpoint scan (w : world) (id_ : string) (keys : list string)
    (v : module_vars) : M module_vars :=
  match keys with
  | [] => mret v
  | key :: keys' =>
      if negb (status v =? 0) then
        if strcmp key HAL_DEFAULT_VARIANT =? 0 then
          let variant := strncpy_buf PATH_MAX HAL_DEFAULT_VARIANT in
          let path := snprintf_path PATH_MAX HAL_LIBRARY_PATH id_ variant in
          r ← load w id_ path;
          scan w id_ keys'
            {| status := load_ret r; hmi := pHmi r; handle := pHandle r |}
        else
          '(len, variant) ← property_get w key;
          if len =? 0 then
            scan w id_ keys' v
          else
            let path := snprintf_path PATH_MAX HAL_LIBRARY_PATH id_ variant in
            r ← load w id_ path;
            scan w id_ keys'
              {| status := load_ret r; hmi := pHmi r; handle := pHandle r |}
      else mret v
  end.

(** The statements after the loop, up to the store through [module]. *)
Definition scan_done (v : module_vars) : M module_vars :=
  if negb (status v =? 0) then
    match handle v with
    | Some h =>
        _ ← dlclose h;
        mret {| status := status v; hmi := None; handle := Some h |}
    | None =>
        mret {| status := status v; hmi := None; handle := None |}
    end
  else mret v.

(** The variables of [hw_get_module] when it returns. *)
Definition hw_get_module_vars (w : world) (id_ : string) : M module_vars :=
  v ← scan w id_ (take HAL_VARIANT_KEYS_COUNT variant_keys)
         {| status := - EINVAL; hmi := None; handle := None |};
  scan_done v.

(** What the caller of [hw_get_module] gets: the returned status and
    the value stored through [module]. *)
Record module_result : Type := Build_module_result {
  ret : Z;
  module : option hw_module_t
}.

Definition hw_get_module (w : world) (id_ : string) : M module_result :=
  v ← hw_get_module_vars w id_;
  mret {| ret := status v; module := hmi v |}.

(** ** The specification's reading of the search

    These definitions follow the words of the specification (sections
    4.1 to 4.3), not the code; the theorems below compare them with
    [load] and [hw_get_module]. *)

(** The per-candidate failures of section 7. *)
Inductive load_error : Type := OpenFailed | SymbolNotFound | IdMismatch.

(** Section 4.2: open the candidate, look the descriptor up, compare
    its [id] with the requested one by exact equality. *)
Definition check (w : world) (id_ path : string)
  : load_error + library * hw_module_t :=
  match files w !! path with
  | None => inl OpenFailed
  | Some lib =>
      match exports lib !! HAL_MODULE_INFO_SYM_AS_STR with
      | None => inl SymbolNotFound
      | Some m => if decide (id m = id_) then inr (lib, m) else inl IdMismatch
      end
  end.

(** Section 4.1, [resolve]: the fallback entry gives its constant; a
    key-query entry gives the stored value, and is unavailable when
    the key is absent or its value is empty. *)
Definition resolve (w : world) (key : string) : option string :=
  if decide (key = HAL_DEFAULT_VARIANT) then Some HAL_DEFAULT_VARIANT
  else
    match props w !! key with
    | Some v => if decide (v = EmptyString) then None else Some v
    | None => None
    end.

(** Section 3, CandidatePath, with the length limit of the buffer. *)
Definition candidate_path (id_ variant : string) : string :=
  snprintf_path PATH_MAX HAL_LIBRARY_PATH id_ variant.

(** Section 4.3: the first entry, in order, that resolves to a variant
    whose candidate passes [check]; with it, the candidate paths that
    are attempted, in order, the winning one last. *)
Fixpoint first_success (w : world) (id_ : string) (keys : list string)
  : option (library * hw_module_t) * list string :=
  match keys with
  | [] => (None, [])
  | key :: keys' =>
      match resolve w key with
      | None => first_success w id_ keys'
      | Some variant =>
          let p := candidate_path id_ variant in
          match check w id_ p with
          | inr hm => (Some hm, [p])
          | inl _ =>
              let '(r, ps) := first_success w id_ keys' in (r, p :: ps)
          end
      end
  end.

(** The failed result of [load]: [-EINVAL] and two null pointers. *)
Definition load_failed : load_result :=
  {| load_ret := - EINVAL; pHandle := None; pHmi := None |}.

(** The calls the specification expects of one [load], by outcome. *)
Definition load_calls (w : world) (id_ path : string) : list event :=
  dlopen_call path RTLD_NOW ::
  match files w !! path with
  | None => [dlerror_call]
  | Some lib =>
      dlsym_call lib HAL_MODULE_INFO_SYM_AS_STR ::
      match exports lib !! HAL_MODULE_INFO_SYM_AS_STR with
      | None => [dlerror_call; dlclose_call lib]
      | Some m => if decide (id m = id_) then [] else [dlclose_call lib]
      end
  end.

(** The call that resolving one entry makes: the fallback entry asks
    nobody, a key-query entry asks the configuration store. *)
Definition consult (key : string) : list event :=
  if decide (key = HAL_DEFAULT_VARIANT) then [] else [property_get_call key].

(** The state after some more calls. *)
Definition after (s : sys) (evs : list event) : sys :=
  {| open := open s; trace := trace s ++ evs |}.

(** The variables of [hw_get_module] on entry to the loop. *)
Definition vars_init : module_vars :=
  {| status := - EINVAL; hmi := None; handle := None |}.

(** The variables of [hw_get_module] that the specification expects
    after the loop, given the outcome of the search. *)
Definition vars_of (o : option (library * hw_module_t)) : module_vars :=
  match o with
  | Some (h, m) => {| status := 0; hmi := Some m; handle := Some h |}
  | None => vars_init
  end.

(** The references the search leaves open: one on the winner. *)
Definition opened (o : option (library * hw_module_t)) : list library :=
  match o with
  | Some (h, _) => [h]
  | None => []
  end.

(** The result the caller is expected to get. *)
Definition result_of (o : option (library * hw_module_t)) : module_result :=
  match o with
  | Some (_, m) => {| ret := 0; module := Some m |}
  | None => {| ret := - EINVAL; module := None |}
  end.

(** The paths handed to [dlopen] in a sequence of calls. *)
Fixpoint attempts (evs : list event) : list string :=
  match evs with
  | [] => []
  | dlopen_call p _ :: evs' => p :: attempts evs'
  | _ :: evs' => attempts evs'
  end.

(** The calls the specification expects of the whole search: each
    entry visited is resolved, each variant obtained is tried, and
    nothing follows the first success. *)
Fixpoint search_calls (w : world) (id_ : string) (keys : list string)
  : list event :=
  match keys with
  | [] => []
  | key :: keys' =>
      consult key ++
      match resolve w key with
      | None => search_calls w id_ keys'
      | Some variant =>
          let p := candidate_path id_ variant in
          load_calls w id_ p ++
          match check w id_ p with
          | inr _ => []
          | inl _ => search_calls w id_ keys'
          end
      end
  end.

(** The calls made by a computation [m] started in [s]: what it adds
    to the trace. *)
Definition calls {A : Type} (m : M A) (s : sys) : list event :=
  drop (length (trace s)) (trace (m s).2).

(** What a caller holds after a call: a handle and a descriptor, each
    possibly absent. *)
Record delivered : Type := Build_delivered {
  d_handle : option library;
  d_hmi : option hw_module_t
}.

(** [load] stores both through its last two parameters. *)
Definition load_delivers (r : load_result) : delivered :=
  {| d_handle := pHandle r; d_hmi := pHmi r |}.

(** [hw_get_module] has the [module] parameter only: its variable
    [handle] goes out of scope when it returns. *)
Definition hw_get_module_delivers (r : module_result) : delivered :=
  {| d_handle := None; d_hmi := module r |}.

(** Handle and descriptor come together or not at all. *)
Definition paired (d : delivered) : Prop :=
  is_Some (d_handle d) ↔ is_Some (d_hmi d).

(** ** Observing and varying the run *)

(** The keys asked of the configuration store in a sequence of calls. *)
Fixpoint queries (evs : list event) : list string :=
  match evs with
  | [] => []
  | property_get_call key :: evs' => key :: queries evs'
  | _ :: evs' => queries evs'
  end.

(** The same world with another configuration store. *)
Definition with_props (w : world) (p : gmap string string) : world :=
  {| props := p; files := files w; indeterminate := indeterminate w |}.


(** [n] calls of [hw_get_module] in a row, with their results. *)
Fixpoint hw_get_module_times (w : world) (id_ : string) (n : nat)
  : M (list module_result) :=
  match n with
  | O => mret []
  | S n' =>
      r ← hw_get_module w id_;
      rs ← hw_get_module_times w id_ n';
      mret (r :: rs)
  end.

(** A string of [n] copies of the character [c]. *)
Fixpoint string_of (n : nat) (c : Ascii.ascii) : string :=
  match n with
  | O => EmptyString
  | S n' => String c (string_of n' c)
  end.

(** The path the format "%s/%s.%s.so" gives when nothing is cut off. *)
Definition full_path (id_ variant : string) : string :=
  HAL_LIBRARY_PATH +:+ "/" +:+ id_ +:+ "." +:+ variant +:+ ".so".

(** ** A concrete device *)

(** The "led" scenario: the board is "trout", the architecture key is
    not set; the board variant exports a descriptor for "led2", the
    default variant one for "led". *)
Module Scenario.

Definition led_trout_hmi : hw_module_t :=
  {| id := "led2"; name := "trout led" |}.

Definition led_default_hmi : hw_module_t :=
  {| id := "led"; name := "default led" |}.

Definition led_trout_so : library :=
  {| base := 4096; exports := {[ HAL_MODULE_INFO_SYM_AS_STR := led_trout_hmi ]} |}.

Definition led_default_so : library :=
  {| base := 8192; exports := {[ HAL_MODULE_INFO_SYM_AS_STR := led_default_hmi ]} |}.

Definition device : world :=
  {| props := {[ "ro.product.board" := "trout" ]};
     files := {[ "/system/lib/hw/led.trout.so" := led_trout_so;
                 "/system/lib/hw/led.default.so" := led_default_so ]};
     indeterminate := None |}.

Definition led_trout_path : string := "/system/lib/hw/led.trout.so".

Definition led_default_path : string := "/system/lib/hw/led.default.so".

(** The same device with a board variant that does export a
    descriptor for "led": both variants are valid. *)
Definition led_trout_valid_hmi : hw_module_t :=
  {| id := "led"; name := "trout led" |}.

Definition led_trout_valid_so : library :=
  {| base := 4096;
     exports := {[ HAL_MODULE_INFO_SYM_AS_STR := led_trout_valid_hmi ]} |}.

Definition device_both : world :=
  {| props := {[ "ro.product.board" := "trout" ]};
     files := {[ led_trout_path := led_trout_valid_so;
                 led_default_path := led_default_so ]};
     indeterminate := None |}.

(** A device whose only library exports no descriptor. *)
Definition stripped_so : library := {| base := 12288; exports := ∅ |}.

Definition device_stripped : world :=
  {| props := ∅;
     files := {[ led_default_path := stripped_so ]};
     indeterminate := Some led_trout_hmi |}.

End Scenario.

(** * Properties *)

(** ** The C library functions *)

Lemma strcmp_refl (s : string) : strcmp s s = 0.
Proof.
  induction s as [|c r IH]; simpl; [reflexivity|].
  by rewrite N.compare_refl.
Qed.

Lemma strcmp_0_eq (s1 s2 : string) : strcmp s1 s2 = 0 → s1 = s2.
Proof.
  revert s2; induction s1 as [|c1 r1 IH]; intros [|c2 r2]; simpl;
    try discriminate; [reflexivity|].
  destruct (N.compare_spec (Ascii.N_of_ascii c1) (Ascii.N_of_ascii c2)) as [E| |];
    try discriminate.
  intros H. f_equal; [|by apply IH].
  rewrite <- (Ascii.ascii_N_embedding c1), <- (Ascii.ascii_N_embedding c2).
  by rewrite E.
Qed.

(** [strcmp] answers 0 exactly on equal strings: the comparison is
    case-sensitive and covers the whole string. *)
Lemma strcmp_0_iff (s1 s2 : string) : strcmp s1 s2 = 0 ↔ s1 = s2.
Proof.
  split; [apply strcmp_0_eq|]. intros ->. apply strcmp_refl.
Qed.

Lemma strcmp_eqb (s1 s2 : string) :
  (strcmp s1 s2 =? 0) = bool_decide (s1 = s2).
Proof.
  case_bool_decide as E.
  - apply Z.eqb_eq. by apply strcmp_0_iff.
  - apply Z.eqb_neq. by rewrite strcmp_0_iff.
Qed.

Lemma default_variant_fits :
  strncpy_buf PATH_MAX HAL_DEFAULT_VARIANT = HAL_DEFAULT_VARIANT.
Proof. vm_compute. reflexivity. Qed.

Lemma release_head (h : library) (l : list library) :
  release (base h) (h :: l) = l.
Proof. simpl. by rewrite N.eqb_refl. Qed.

Lemma length_0_empty (v : string) :
  (Z.of_nat (String.length v) =? 0) = bool_decide (v = EmptyString).
Proof.
  destruct v as [|c r]; [reflexivity|].
  case_bool_decide; [discriminate|]. apply Z.eqb_neq. simpl. lia.
Qed.

(** ** Running [load] *)

Ltac run_monad :=
  unfold mbind, M_bind, mret, M_ret, emit, get_open, put_open; simpl.

Section Load.

Variable w : world.
Variables id_ path : string.

Lemma load_run (s : sys) :
  load w id_ path s =
    match check w id_ path with
    | inr (h, m) =>
        ({| load_ret := 0; pHandle := Some h; pHmi := Some m |},
         {| open := h :: open s; trace := trace s ++ load_calls w id_ path |})
    | inl _ =>
        (load_failed, {| open := open s; trace := trace s ++ load_calls w id_ path |})
    end.
Proof.
  unfold load, load_body, load_done, dlopen, dlsym, dlclose, dlerror,
    check, load_calls, load_failed.
  run_monad.
  destruct (files w !! path) as [lib|]; simpl.
  - destruct (exports lib !! HAL_MODULE_INFO_SYM_AS_STR) as [m|]; simpl.
    + rewrite strcmp_eqb.
      destruct (decide (id m = id_)) as [E|E].
      * rewrite bool_decide_eq_true_2 by done. simpl.
        by rewrite <- !app_assoc.
      * rewrite bool_decide_eq_false_2 by congruence. simpl.
        rewrite N.eqb_refl. by rewrite <- !app_assoc.
    + rewrite N.eqb_refl. by rewrite <- !app_assoc.
  - by rewrite <- !app_assoc.
Qed.

End Load.

(** ** Running the loop of [hw_get_module] *)

#[local] Arguments load_calls : simpl never.
#[local] Arguments candidate_path : simpl never.
#[local] Arguments snprintf_path : simpl never.

Lemma after_nil (s : sys) : after s [] = s.
Proof. destruct s as [o t]. unfold after; simpl. by rewrite app_nil_r. Qed.

Lemma attempts_app (e1 e2 : list event) :
  attempts (e1 ++ e2) = attempts e1 ++ attempts e2.
Proof.
  induction e1 as [|e e1 IH]; [reflexivity|].
  destruct e; simpl; by rewrite IH.
Qed.

Lemma attempts_consult (key : string) : attempts (consult key) = [].
Proof. unfold consult. by destruct (decide _). Qed.

Lemma attempts_load_calls (w : world) (id_ path : string) :
  attempts (load_calls w id_ path) = [path].
Proof.
  unfold load_calls. cbn. f_equal.
  destruct (files w !! path) as [lib|]; [|reflexivity]. cbn.
  destruct (exports lib !! _) as [m|]; [|reflexivity].
  by destruct (decide _).
Qed.

Section Scan.

Variable w : world.
Variable id_ : string.

(** Once [status] is 0 the loop is left at once. *)
Lemma scan_found (keys : list string) (v : module_vars) (s : sys) :
  status v = 0 → scan w id_ keys v s = (v, s).
Proof.
  intros E. destruct keys as [|key keys]; [reflexivity|].
  simpl. by rewrite E.
Qed.

(** One turn of the loop, in the specification's terms. *)
Lemma scan_step (key : string) (keys : list string) (v : module_vars)
    (s : sys) :
  status v ≠ 0 →
  scan w id_ (key :: keys) v s =
    match resolve w key with
    | None => scan w id_ keys v (after s (consult key))
    | Some variant =>
        let r := load w id_ (candidate_path id_ variant)
                   (after s (consult key)) in
        scan w id_ keys
          {| status := load_ret r.1; hmi := pHmi r.1;
             handle := pHandle r.1 |} r.2
    end.
Proof.
  intros E. simpl scan.
  apply Z.eqb_neq in E. rewrite E. simpl negb. cbv iota.
  rewrite strcmp_eqb. unfold resolve, consult.
  destruct (decide (key = HAL_DEFAULT_VARIANT)) as [K|K].
  - rewrite bool_decide_eq_true_2 by done.
    rewrite default_variant_fits, after_nil.
    unfold candidate_path. run_monad.
    by destruct (load _ _ _ s).
  - rewrite bool_decide_eq_false_2 by done.
    unfold property_get. run_monad. fold (after s [property_get_call key]).
    destruct (props w !! key) as [val|]; simpl; [|reflexivity].
    rewrite length_0_empty.
    destruct (decide (val = EmptyString)) as [V|V].
    + by rewrite bool_decide_eq_true_2.
    + rewrite bool_decide_eq_false_2 by done.
      unfold candidate_path. by destruct (load _ _ _ _).
Qed.

(** The loop finds what the specification's search finds, leaves a
    reference on the winner only, and makes the calls the
    specification lists. *)
Lemma scan_spec (keys : list string) (s : sys) :
  scan w id_ keys vars_init s =
    (vars_of (first_success w id_ keys).1,
     {| open := opened (first_success w id_ keys).1 ++ open s;
        trace := trace s ++ search_calls w id_ keys |}).
Proof.
  revert s. induction keys as [|key keys IH]; intros s.
  - simpl. f_equal. apply (eq_sym (after_nil s)).
  - rewrite scan_step by done. simpl first_success. simpl search_calls.
    destruct (resolve w key) as [variant|].
    + cbv zeta. rewrite load_run.
      destruct (check w id_ (candidate_path id_ variant)) as [e|[h m]]; simpl.
      * fold vars_init. rewrite IH. unfold after; simpl.
        destruct (first_success w id_ keys) as [o ps]; cbn [fst snd].
        by rewrite <- !app_assoc.
      * rewrite scan_found by done. rewrite app_nil_r.
        by rewrite <- !app_assoc.
    + rewrite IH. unfold after; simpl. by rewrite <- !app_assoc.
Qed.

(** The paths tried are the [dlopen] calls of the search. *)
Lemma attempts_search_calls (keys : list string) :
  attempts (search_calls w id_ keys) = (first_success w id_ keys).2.
Proof.
  induction keys as [|key keys IH]; [reflexivity|].
  cbn [search_calls first_success].
  rewrite attempts_app, attempts_consult. cbn [app].
  destruct (resolve w key) as [variant|]; [|done].
  cbv zeta. rewrite attempts_app, attempts_load_calls.
  destruct (check w id_ (candidate_path id_ variant)) as [e|[h m]].
  - destruct (first_success w id_ keys) as [o ps]; cbn [fst snd app] in *.
    by rewrite IH.
  - reflexivity.
Qed.

End Scan.

(** ** Running [hw_get_module] *)

Section Locate.

Variable w : world.
Variable id_ : string.

Lemma hw_get_module_vars_run (s : sys) :
  hw_get_module_vars w id_ s =
    (vars_of (first_success w id_ variant_keys).1,
     {| open := opened (first_success w id_ variant_keys).1 ++ open s;
        trace := trace s ++ search_calls w id_ variant_keys |}).
Proof.
  change (hw_get_module_vars w id_ s)
    with (let '(v, s') := scan w id_ variant_keys vars_init s in
          scan_done v s').
  rewrite scan_spec.
  by destruct (first_success w id_ variant_keys).1 as [[h m]|].
Qed.

Lemma hw_get_module_run (s : sys) :
  hw_get_module w id_ s =
    (result_of (first_success w id_ variant_keys).1,
     {| open := opened (first_success w id_ variant_keys).1 ++ open s;
        trace := trace s ++ search_calls w id_ variant_keys |}).
Proof.
  unfold hw_get_module, mbind, M_bind. rewrite hw_get_module_vars_run.
  by destruct (first_success w id_ variant_keys).1 as [[h m]|].
Qed.

(** What the caller gets depends on the configuration store and on
    the files only, not on what is open already. *)
Lemma hw_get_module_result (s : sys) :
  (hw_get_module w id_ s).1 = result_of (first_success w id_ variant_keys).1.
Proof. by rewrite hw_get_module_run. Qed.

Lemma hw_get_module_open (s : sys) :
  open (hw_get_module w id_ s).2 =
    opened (first_success w id_ variant_keys).1 ++ open s.
Proof. by rewrite hw_get_module_run. Qed.

Lemma hw_get_module_calls (s : sys) :
  calls (hw_get_module w id_) s = search_calls w id_ variant_keys.
Proof.
  unfold calls. rewrite hw_get_module_run. simpl. by rewrite drop_app_length.
Qed.

Lemma hw_get_module_attempts (s : sys) :
  attempts (calls (hw_get_module w id_) s) =
    (first_success w id_ variant_keys).2.
Proof. rewrite hw_get_module_calls. apply attempts_search_calls. Qed.

(** A winner of the search passed [check]. *)
Lemma first_success_checked (keys : list string) (h : library)
    (m : hw_module_t) :
  (first_success w id_ keys).1 = Some (h, m) →
  ∃ variant, check w id_ (candidate_path id_ variant) = inr (h, m).
Proof.
  induction keys as [|key keys IH]; simpl; [discriminate|].
  destruct (resolve w key) as [variant|]; [|done].
  destruct (check w id_ (candidate_path id_ variant)) as [e|hm] eqn:C.
  - destruct (first_success w id_ keys) as [o ps]. simpl in *. done.
  - simpl. intros [= ->]. by exists variant.
Qed.

End Locate.

Lemma check_inr (w : world) (id_ path : string) (h : library)
    (m : hw_module_t) :
  check w id_ path = inr (h, m) →
  files w !! path = Some h
  ∧ exports h !! HAL_MODULE_INFO_SYM_AS_STR = Some m
  ∧ id m = id_.
Proof.
  unfold check. destruct (files w !! path) as [lib|]; [|discriminate].
  destruct (exports lib !! _) as [m'|] eqn:X; [|discriminate].
  destruct (decide (id m' = id_)); [|discriminate].
  intros [= -> ->]. done.
Qed.

Lemma load_calls_run (w : world) (id_ path : string) (s : sys) :
  calls (load w id_ path) s = load_calls w id_ path.
Proof.
  unfold calls. rewrite load_run.
  destruct (check w id_ path) as [e|[h m]]; simpl; by rewrite drop_app_length.
Qed.

(** * The claims *)

Import Scenario.

(** ** Release of handles *)

(** C1. No handle leak on failure: when [load] fails, the references
    held on open libraries are what they were before the call, and a
    library that [dlopen] did open has been passed to [dlclose]; when
    [hw_get_module] fails, the references held are what they were
    before the call, so none is attributable to it. *)
Theorem no_handle_leak (w : world) (id_ path : string) (s : sys) :
  (load_ret (load w id_ path s).1 ≠ 0 →
     open (load w id_ path s).2 = open s
     ∧ ∀ h, files w !! path = Some h →
            dlclose_call h ∈ calls (load w id_ path) s)
  ∧ (ret (hw_get_module w id_ s).1 ≠ 0 →
     open (hw_get_module w id_ s).2 = open s).
Proof.
  split.
  - rewrite load_calls_run, load_run. unfold load_calls.
    destruct (check w id_ path) as [e|[h m]] eqn:C; simpl; [|done].
    intros _. split; [done|]. intros h Hh. rewrite Hh.
    unfold check in C. rewrite Hh in C.
    destruct (exports h !! HAL_MODULE_INFO_SYM_AS_STR) as [m|].
    + destruct (decide (id m = id_)); [discriminate|].
      set_solver.
    + set_solver.
  - rewrite hw_get_module_open, hw_get_module_result.
    by destruct (first_success w id_ variant_keys).1 as [[h m]|].
Qed.

Lemma no_handle_leak_witness :
  (open (load device "lights" led_trout_path initial_sys).2 = []
   ∧ ∀ h, files device !! led_trout_path = Some h →
          dlclose_call h ∈ calls (load device "lights" led_trout_path) initial_sys)
  ∧ open (hw_get_module device "lights" initial_sys).2 = [].
Proof.
  split.
  - apply (proj1 (no_handle_leak device "lights" led_trout_path initial_sys)).
    vm_compute. discriminate.
  - apply (proj2 (no_handle_leak device "lights" led_trout_path initial_sys)).
    vm_compute. discriminate.
Defined.

(** ** Priority *)

(** C2. Strict positional priority, first success wins:
    [hw_get_module] returns what the first entry of [variant_keys]
    (board key, architecture key, default) that resolves to a variant
    and passes the checks gives; the paths it hands to [dlopen] are
    the candidates up to the winner and none after it; so with a
    board variant that is valid the board variant is returned, the
    calls made are those of the board attempt, and neither the
    architecture key nor the default variant is looked at. *)
Theorem first_success_wins (w : world) (id_ : string) (s : sys) :
  (hw_get_module w id_ s).1 = result_of (first_success w id_ variant_keys).1
  ∧ attempts (calls (hw_get_module w id_) s)
      = (first_success w id_ variant_keys).2
  ∧ ∀ (board : string) (lib : library) (m : hw_module_t),
      props w !! "ro.product.board" = Some board →
      board ≠ EmptyString →
      files w !! candidate_path id_ board = Some lib →
      exports lib !! HAL_MODULE_INFO_SYM_AS_STR = Some m →
      id m = id_ →
      (hw_get_module w id_ s).1 = {| ret := 0; module := Some m |}
      ∧ calls (hw_get_module w id_) s
          = [property_get_call "ro.product.board";
             dlopen_call (candidate_path id_ board) RTLD_NOW;
             dlsym_call lib HAL_MODULE_INFO_SYM_AS_STR]
      ∧ open (hw_get_module w id_ s).2 = lib :: open s.
Proof.
  split; [apply hw_get_module_result|].
  split; [apply hw_get_module_attempts|].
  intros board lib m Hboard Hne Hlib Hm Hid.
  rewrite hw_get_module_result, hw_get_module_calls, hw_get_module_open.
  assert (resolve w "ro.product.board" = Some board) as R.
  { unfold resolve. rewrite decide_False by discriminate.
    by rewrite Hboard, decide_False. }
  assert (check w id_ (candidate_path id_ board) = inr (lib, m)) as C.
  { unfold check. rewrite Hlib, Hm. by rewrite decide_True. }
  unfold variant_keys. cbn [first_success search_calls].
  rewrite R. cbv zeta. rewrite C.
  unfold load_calls. rewrite Hlib, Hm, decide_True by done.
  done.
Qed.

Lemma first_success_wins_witness :
  (hw_get_module device_both "led" initial_sys).1
    = {| ret := 0; module := Some led_trout_valid_hmi |}
  ∧ calls (hw_get_module device_both "led") initial_sys
    = [property_get_call "ro.product.board";
       dlopen_call (candidate_path "led" "trout") RTLD_NOW;
       dlsym_call led_trout_valid_so HAL_MODULE_INFO_SYM_AS_STR]
  ∧ open (hw_get_module device_both "led" initial_sys).2 = [led_trout_valid_so].
Proof.
  apply (proj2 (proj2 (first_success_wins device_both "led" initial_sys))
           "trout" led_trout_valid_so led_trout_valid_hmi);
    vm_compute; solve [reflexivity | discriminate].
Defined.

(** ** Identity *)

(** C3. Verified identity on success: a descriptor stored by [load],
    and hence one stored by [hw_get_module], has an [id] equal to the
    requested one, character for character ([strcmp] answers 0 on
    equal strings only); a candidate whose descriptor has another [id]
    makes [load] fail as IdMismatch, and the handle just opened is
    passed to [dlclose] before [load] returns. *)
Theorem verified_identity (w : world) (id_ path : string) (s : sys) :
  (∀ m, pHmi (load w id_ path s).1 = Some m →
        id m = id_ ∧ strcmp id_ (id m) = 0
        ∧ load_ret (load w id_ path s).1 = 0
        ∧ is_Some (pHandle (load w id_ path s).1))
  ∧ (∀ m, module (hw_get_module w id_ s).1 = Some m → id m = id_)
  ∧ (∀ lib m,
       files w !! path = Some lib →
       exports lib !! HAL_MODULE_INFO_SYM_AS_STR = Some m →
       id m ≠ id_ →
       check w id_ path = inl IdMismatch
       ∧ (load w id_ path s).1 = load_failed
       ∧ open (load w id_ path s).2 = open s
       ∧ calls (load w id_ path) s =
           [dlopen_call path RTLD_NOW;
            dlsym_call lib HAL_MODULE_INFO_SYM_AS_STR;
            dlclose_call lib]).
Proof.
  split; [|split].
  - intros m. rewrite load_run.
    destruct (check w id_ path) as [e|[h m']] eqn:C; simpl; [discriminate|].
    intros [= ->]. apply check_inr in C as (_ & _ & <-).
    rewrite strcmp_refl. eauto.
  - intros m. rewrite hw_get_module_result.
    destruct (first_success w id_ variant_keys).1 as [[h m']|] eqn:F;
      simpl; [|discriminate].
    intros [= ->].
    apply first_success_checked in F as (variant & C).
    by apply check_inr in C as (_ & _ & ?).
  - intros lib m Hlib Hm Hid.
    assert (check w id_ path = inl IdMismatch) as C.
    { unfold check. rewrite Hlib, Hm.
      by rewrite decide_False. }
    rewrite load_calls_run, load_run, C. simpl.
    repeat split.
    unfold load_calls. rewrite Hlib, Hm. by rewrite decide_False.
Qed.

Lemma verified_identity_witness :
  (id led_default_hmi = "led" ∧ strcmp "led" (id led_default_hmi) = 0
   ∧ load_ret (load device "led" led_default_path initial_sys).1 = 0
   ∧ is_Some (pHandle (load device "led" led_default_path initial_sys).1))
  ∧ id led_default_hmi = "led"
  ∧ (check device "led" led_trout_path = inl IdMismatch
     ∧ (load device "led" led_trout_path initial_sys).1 = load_failed
     ∧ open (load device "led" led_trout_path initial_sys).2 = []
     ∧ calls (load device "led" led_trout_path) initial_sys =
         [dlopen_call led_trout_path RTLD_NOW;
          dlsym_call led_trout_so HAL_MODULE_INFO_SYM_AS_STR;
          dlclose_call led_trout_so]).
Proof.
  split; [|split].
  - apply (proj1 (verified_identity device "led" led_default_path initial_sys)).
    vm_compute. reflexivity.
  - apply (proj1 (proj2 (verified_identity device "led" led_default_path
                           initial_sys))).
    vm_compute. reflexivity.
  - apply (proj2 (proj2 (verified_identity device "led" led_trout_path
                           initial_sys)) led_trout_so led_trout_hmi);
      vm_compute; solve [reflexivity | discriminate].
Defined.

(** ** Unavailable variants *)

(** C4. Silent skip on an unavailable variant: in a turn of the loop
    for an entry that is not the fallback and whose key is absent from
    the configuration store or has an empty value, the only call made
    is the query of the store ([dlopen] and the other loader functions
    are not called, no path reaches them); the variables, [status]
    among them, keep their values, and the loop goes on with the next
    entry. *)
Theorem unavailable_variant_skipped (w : world) (id_ key : string)
    (keys : list string) (v : module_vars) (s : sys) :
  strcmp key HAL_DEFAULT_VARIANT ≠ 0 →
  props w !! key = None ∨ props w !! key = Some EmptyString →
  status v ≠ 0 →
  scan w id_ (key :: keys) v s
    = scan w id_ keys v (after s [property_get_call key]).
Proof.
  intros Hkey Hprop Hstatus.
  rewrite scan_step by done.
  rewrite strcmp_0_iff in Hkey.
  unfold resolve, consult. rewrite !decide_False by done.
  by destruct Hprop as [-> | ->].
Qed.

Lemma unavailable_variant_skipped_witness :
  scan device "led" ["ro.arch"; HAL_DEFAULT_VARIANT] vars_init initial_sys
    = scan device "led" [HAL_DEFAULT_VARIANT] vars_init
        (after initial_sys [property_get_call "ro.arch"]).
Proof.
  apply (unavailable_variant_skipped device "led" "ro.arch"
           [HAL_DEFAULT_VARIANT] vars_init initial_sys).
  - vm_compute. discriminate.
  - left. vm_compute. reflexivity.
  - vm_compute. discriminate.
Defined.

(** ** Exhaustion *)

(** C5. Exhaustion yields nothing: when no candidate succeeds,
    [hw_get_module] returns [-EINVAL], stores a null pointer through
    [module], holds no handle in its own variable, and leaves the open
    references as they were; and whenever it returns a status other
    than 0 the pointer stored through [module] is null. *)
Theorem exhaustion_yields_nothing (w : world) (id_ : string) (s : sys) :
  ((first_success w id_ variant_keys).1 = None →
     (hw_get_module w id_ s).1 = {| ret := - EINVAL; module := None |}
     ∧ handle (hw_get_module_vars w id_ s).1 = None
     ∧ open (hw_get_module w id_ s).2 = open s)
  ∧ (ret (hw_get_module w id_ s).1 ≠ 0 →
     module (hw_get_module w id_ s).1 = None).
Proof.
  rewrite hw_get_module_result, hw_get_module_open.
  rewrite hw_get_module_vars_run.
  destruct (first_success w id_ variant_keys).1 as [[h m]|]; simpl.
  - split; [discriminate|]. intros H. by destruct H.
  - done.
Qed.

Lemma exhaustion_yields_nothing_witness :
  ((hw_get_module device "lights" initial_sys).1
     = {| ret := - EINVAL; module := None |}
   ∧ handle (hw_get_module_vars device "lights" initial_sys).1 = None
   ∧ open (hw_get_module device "lights" initial_sys).2 = [])
  ∧ module (hw_get_module device "lights" initial_sys).1 = None.
Proof.
  split.
  - apply (proj1 (exhaustion_yields_nothing device "lights" initial_sys)).
    vm_compute. reflexivity.
  - apply (proj2 (exhaustion_yields_nothing device "lights" initial_sys)).
    vm_compute. discriminate.
Defined.

(** ** The "led" scenario *)

(** C6. End-to-end scenario: on the device whose board is "trout" and
    whose architecture key is not set, with a board variant for "led2"
    and a default variant for "led", [hw_get_module] for "led" fails
    the board attempt as IdMismatch and closes its handle, does not
    attempt anything for the architecture entry, succeeds on the
    default variant, and returns its descriptor, whose [id] is "led";
    the reference on the default variant is the only one left open. *)
Theorem led_scenario :
  check device "led" led_trout_path = inl IdMismatch
  ∧ load device "led" led_trout_path
      (after initial_sys [property_get_call "ro.product.board"])
    = (load_failed,
       after initial_sys
         [property_get_call "ro.product.board";
          dlopen_call led_trout_path RTLD_NOW;
          dlsym_call led_trout_so HAL_MODULE_INFO_SYM_AS_STR;
          dlclose_call led_trout_so])
  ∧ resolve device "ro.arch" = None
  ∧ hw_get_module device "led" initial_sys
    = ({| ret := 0; module := Some led_default_hmi |},
       {| open := [led_default_so];
          trace :=
            [property_get_call "ro.product.board";
             dlopen_call led_trout_path RTLD_NOW;
             dlsym_call led_trout_so HAL_MODULE_INFO_SYM_AS_STR;
             dlclose_call led_trout_so;
             property_get_call "ro.arch";
             dlopen_call led_default_path RTLD_NOW;
             dlsym_call led_default_so HAL_MODULE_INFO_SYM_AS_STR] |})
  ∧ id led_default_hmi = "led".
Proof. repeat split; vm_compute; reflexivity. Qed.

(** ** Handle and descriptor *)

(** C7, as stated, fails: in the "led" scenario [hw_get_module]
    succeeds and its caller holds a descriptor and no handle. *)
Lemma descriptor_without_handle :
  ret (hw_get_module device "led" initial_sys).1 = 0
  ∧ ¬ paired (hw_get_module_delivers (hw_get_module device "led" initial_sys).1).
Proof.
  split; [vm_compute; reflexivity|].
  intros [_ H].
  assert (is_Some (d_hmi (hw_get_module_delivers
                            (hw_get_module device "led" initial_sys).1))) as S.
  { vm_compute. eauto. }
  apply H in S. destruct S as [h S]. vm_compute in S. discriminate.
Qed.

(** C7, amended. [load] stores a handle and a descriptor together or
    stores neither.  [hw_get_module] passes the descriptor alone to
    its caller: when it returns 0 the caller gets a descriptor, the
    handle it was read from is held in the variable [handle] of
    [hw_get_module] only, and the reference on it stays open; when it
    returns another status the caller gets no descriptor and no
    reference stays open. *)
Theorem handle_descriptor_pairing (w : world) (id_ path : string) (s : sys) :
  paired (load_delivers (load w id_ path s).1)
  ∧ d_handle (hw_get_module_delivers (hw_get_module w id_ s).1) = None
  ∧ (ret (hw_get_module w id_ s).1 = 0 →
     ∃ h m,
       module (hw_get_module w id_ s).1 = Some m
       ∧ handle (hw_get_module_vars w id_ s).1 = Some h
       ∧ exports h !! HAL_MODULE_INFO_SYM_AS_STR = Some m
       ∧ open (hw_get_module w id_ s).2 = h :: open s)
  ∧ (ret (hw_get_module w id_ s).1 ≠ 0 →
     module (hw_get_module w id_ s).1 = None
     ∧ handle (hw_get_module_vars w id_ s).1 = None
     ∧ open (hw_get_module w id_ s).2 = open s).
Proof.
  split; [|split; [reflexivity|]].
  - rewrite load_run. unfold paired.
    destruct (check w id_ path) as [e|[h m]]; simpl.
    + split; intros [x ?]; discriminate.
    + split; eauto.
  - rewrite hw_get_module_result, hw_get_module_open.
    rewrite hw_get_module_vars_run.
    destruct (first_success w id_ variant_keys).1 as [[h m]|] eqn:F; simpl.
    + split; [|by intros H; destruct H].
      intros _. exists h, m. repeat split.
      apply first_success_checked in F as (variant & C).
      by apply check_inr in C as (_ & ? & _).
    + split; [discriminate|done].
Qed.

Lemma handle_descriptor_pairing_witness :
  (∃ h m,
     module (hw_get_module device "led" initial_sys).1 = Some m
     ∧ handle (hw_get_module_vars device "led" initial_sys).1 = Some h
     ∧ exports h !! HAL_MODULE_INFO_SYM_AS_STR = Some m
     ∧ open (hw_get_module device "led" initial_sys).2 = h :: open initial_sys)
  ∧ (module (hw_get_module device "lights" initial_sys).1 = None
     ∧ handle (hw_get_module_vars device "lights" initial_sys).1 = None
     ∧ open (hw_get_module device "lights" initial_sys).2 = open initial_sys).
Proof.
  split.
  - apply (proj1 (proj2 (proj2
             (handle_descriptor_pairing device "led" led_default_path
                initial_sys)))).
    vm_compute. reflexivity.
  - apply (proj2 (proj2 (proj2
             (handle_descriptor_pairing device "lights" led_default_path
                initial_sys)))).
    vm_compute. discriminate.
Defined.

(** ** Repeated calls *)

(** C8. Idempotence under unchanged external state: a second call of
    [hw_get_module] for the same id, made in the state the first call
    left and with the same configuration store and files, returns the
    same status and a descriptor with the same identity as the first;
    after two successful calls the loader holds two references on the
    library found. *)
Theorem hw_get_module_idempotent (w : world) (id_ : string) (s : sys) :
  let first := hw_get_module w id_ s in
  let second := hw_get_module w id_ first.2 in
  second.1 = first.1
  ∧ id <$> module second.1 = id <$> module first.1
  ∧ open second.2
    = opened (first_success w id_ variant_keys).1
      ++ opened (first_success w id_ variant_keys).1 ++ open s.
Proof.
  cbv zeta. rewrite !hw_get_module_result, !hw_get_module_open. done.
Qed.

(** ** The outputs of [load] *)

(** C9. [load] stores through both [pHandle] and [pHmi] on every path,
    and what it stores goes with the status: the status is 0 exactly
    when the handle stored is not null, and exactly when the
    descriptor pointer stored is not null; when [load] fails both are
    null, whatever the variable [hmi] held before it was assigned. *)
Theorem load_outputs_coupled (w : world) (id_ path : string) (s : sys) :
  (load_ret (load w id_ path s).1 = 0
     ↔ is_Some (pHandle (load w id_ path s).1))
  ∧ (load_ret (load w id_ path s).1 = 0
     ↔ is_Some (pHmi (load w id_ path s).1))
  ∧ (load_ret (load w id_ path s).1 ≠ 0 →
     pHandle (load w id_ path s).1 = None
     ∧ pHmi (load w id_ path s).1 = None)
  ∧ ∀ garbage,
      load {| props := props w; files := files w; indeterminate := garbage |}
        id_ path s
      = load w id_ path s.
Proof.
  split; [|split; [|split]].
  - rewrite load_run.
    destruct (check w id_ path) as [e|[h m]]; simpl.
    + split; [discriminate|]. intros [x ?]; discriminate.
    + split; eauto.
  - rewrite load_run.
    destruct (check w id_ path) as [e|[h m]]; simpl.
    + split; [discriminate|]. intros [x ?]; discriminate.
    + split; eauto.
  - rewrite load_run.
    destruct (check w id_ path) as [e|[h m]]; simpl; done.
  - intros garbage. by rewrite !load_run.
Qed.

Lemma load_outputs_coupled_witness :
  pHandle (load device_stripped "led" led_trout_path initial_sys).1 = None
  ∧ pHmi (load device_stripped "led" led_trout_path initial_sys).1 = None.
Proof.
  apply (proj1 (proj2 (proj2
           (load_outputs_coupled device_stripped "led" led_trout_path
              initial_sys)))).
  vm_compute. discriminate.
Defined.

(** ** Error codes *)

(** C10. Every failure is the one code [-EINVAL]: [hw_get_module]
    returns 0 or [-EINVAL]; [load] returns 0 or [-EINVAL], and returns
    [-EINVAL] with the same outputs for each of the three causes (the
    library cannot be opened, it lacks the descriptor symbol, the
    descriptor has another id), so the cause cannot be told from what
    [load] returns. *)
Theorem failures_collapse_to_EINVAL (w : world) (id_ path : string) (s : sys) :
  (ret (hw_get_module w id_ s).1 = 0
   ∨ ret (hw_get_module w id_ s).1 = - EINVAL)
  ∧ (load_ret (load w id_ path s).1 = 0
     ∨ load_ret (load w id_ path s).1 = - EINVAL)
  ∧ ∀ cause : load_error,
      check w id_ path = inl cause →
      load_ret (load w id_ path s).1 = - EINVAL
      ∧ (load w id_ path s).1 = load_failed.
Proof.
  split; [|split].
  - rewrite hw_get_module_result.
    destruct (first_success w id_ variant_keys).1 as [[h m]|]; simpl; auto.
  - rewrite load_run.
    destruct (check w id_ path) as [e|[h m]]; simpl; auto.
  - intros cause C. rewrite load_run, C. done.
Qed.

Lemma failures_collapse_to_EINVAL_witness :
  load_ret (load device "led" led_trout_path initial_sys).1 = - EINVAL
  ∧ (load device "led" led_trout_path initial_sys).1 = load_failed.
Proof.
  apply (proj2 (proj2
           (failures_collapse_to_EINVAL device "led" led_trout_path
              initial_sys)) IdMismatch).
  vm_compute. reflexivity.
Defined.

(** Each of the three causes does occur. *)
Example cause_open_failed :
  check device "led" "/system/lib/hw/led.ARMV6.so" = inl OpenFailed
  ∧ (load device "led" "/system/lib/hw/led.ARMV6.so" initial_sys).1
    = load_failed.
Proof. split; vm_compute; reflexivity. Qed.

Example cause_symbol_not_found :
  check device_stripped "led" led_default_path = inl SymbolNotFound
  ∧ (load device_stripped "led" led_default_path initial_sys).1 = load_failed.
Proof. split; vm_compute; reflexivity. Qed.

Example cause_id_mismatch :
  check device "led" led_trout_path = inl IdMismatch
  ∧ (load device "led" led_trout_path initial_sys).1 = load_failed.
Proof. split; vm_compute; reflexivity. Qed.

(** * Further properties of the code *)

(** ** Path construction *)

Lemma length_substring_0 (n : nat) (s : string) :
  String.length (String.substring 0 n s) = Nat.min n (String.length s).
Proof.
  revert s; induction n as [|n IH]; intros [|c s]; simpl; auto.
Qed.

Lemma substring_0_all (n : nat) (s : string) :
  (String.length s ≤ n)%nat → String.substring 0 n s = s.
Proof.
  revert s; induction n as [|n IH]; intros [|c s]; simpl; auto; [lia|].
  intros H. f_equal. apply IH. lia.
Qed.

Lemma substring_0_prefix (n : nat) (s : string) :
  ∃ rest, s = String.substring 0 n s +:+ rest.
Proof.
  revert s; induction n as [|n IH]; intros [|c s]; simpl.
  - by exists EmptyString.
  - by exists (String c s).
  - by exists EmptyString.
  - destruct (IH s) as [rest E]. exists rest.
    change (String c s = String c (String.substring 0 n s +:+ rest)).
    by f_equal.
Qed.

Lemma length_append (s1 s2 : string) :
  String.length (s1 +:+ s2) = (String.length s1 + String.length s2)%nat.
Proof. induction s1 as [|c s1 IH]; simpl; auto. Qed.

Lemma length_full_path (id_ variant : string) :
  String.length (full_path id_ variant)
    = (String.length id_ + String.length variant + 19)%nat.
Proof.
  unfold full_path, HAL_LIBRARY_PATH. rewrite !length_append. simpl. lia.
Qed.

Lemma candidate_path_length (id_ variant : string) :
  (String.length (candidate_path id_ variant) < PATH_MAX)%nat.
Proof.
  unfold candidate_path, snprintf_path, truncate.
  rewrite length_substring_0. unfold PATH_MAX. lia.
Qed.

Lemma candidate_path_prefix (id_ variant : string) :
  ∃ rest, full_path id_ variant = candidate_path id_ variant +:+ rest.
Proof.
  unfold candidate_path, snprintf_path, truncate. fold (full_path id_ variant).
  apply substring_0_prefix.
Qed.

(** The path built by [snprintf] always fits the [path] buffer with
    its terminator, and is the beginning of what the format
    "%s/%s.%s.so" gives: an over-long id or variant is cut off, never
    written past the buffer. *)
Theorem candidate_path_bounded (id_ variant : string) :
  (String.length (candidate_path id_ variant) < PATH_MAX)%nat
  ∧ ∃ rest, full_path id_ variant = candidate_path id_ variant +:+ rest.
Proof.
  split; [apply candidate_path_length|apply candidate_path_prefix].
Qed.

(** When the id and the variant are short enough for the buffer, the
    candidate path is "/system/lib/hw/<id>.<variant>.so" in full. *)
Theorem candidate_path_exact (id_ variant : string) :
  (String.length id_ + String.length variant + 19 < PATH_MAX)%nat →
  candidate_path id_ variant
    = "/system/lib/hw/" +:+ id_ +:+ "." +:+ variant +:+ ".so".
Proof.
  intros H.
  unfold candidate_path, snprintf_path, truncate. fold (full_path id_ variant).
  rewrite substring_0_all; [reflexivity|].
  rewrite length_full_path. lia.
Qed.

Lemma candidate_path_exact_witness :
  candidate_path "led" "trout"
    = "/system/lib/hw/" +:+ "led" +:+ "." +:+ "trout" +:+ ".so".
Proof.
  apply (candidate_path_exact "led" "trout"). vm_compute. lia.
Defined.

(** ** The outcomes of [load] *)

(** A library that cannot be opened: [load] calls [dlopen], asks
    [dlerror] for the diagnostic, and nothing else; it returns
    [-EINVAL] with two null outputs and the open references are
    untouched. *)
Theorem load_open_failure (w : world) (id_ path : string) (s : sys) :
  files w !! path = None →
  load w id_ path s
    = (load_failed,
       after s [dlopen_call path RTLD_NOW; dlerror_call]).
Proof.
  intros H. rewrite load_run. unfold check, load_calls. by rewrite H.
Qed.

Lemma load_open_failure_witness :
  load device "led" "/system/lib/hw/led.ARMV6.so" initial_sys
    = (load_failed,
       after initial_sys
         [dlopen_call "/system/lib/hw/led.ARMV6.so" RTLD_NOW; dlerror_call]).
Proof.
  apply (load_open_failure device "led" "/system/lib/hw/led.ARMV6.so"
           initial_sys).
  vm_compute. reflexivity.
Defined.

(** A library that opens but does not export the descriptor symbol:
    [load] looks the symbol up, asks [dlerror], closes the handle it
    opened, and returns [-EINVAL] with two null outputs; the open
    references are as before the call. *)
Theorem load_missing_symbol (w : world) (id_ path : string) (s : sys)
    (lib : library) :
  files w !! path = Some lib →
  exports lib !! HAL_MODULE_INFO_SYM_AS_STR = None →
  load w id_ path s
    = (load_failed,
       after s [dlopen_call path RTLD_NOW;
                dlsym_call lib HAL_MODULE_INFO_SYM_AS_STR;
                dlerror_call;
                dlclose_call lib]).
Proof.
  intros Hlib Hsym. rewrite load_run. unfold check, load_calls.
  by rewrite Hlib, Hsym.
Qed.

Lemma load_missing_symbol_witness :
  load device_stripped "led" led_default_path initial_sys
    = (load_failed,
       after initial_sys
         [dlopen_call led_default_path RTLD_NOW;
          dlsym_call stripped_so HAL_MODULE_INFO_SYM_AS_STR;
          dlerror_call;
          dlclose_call stripped_so]).
Proof.
  apply (load_missing_symbol device_stripped "led" led_default_path
           initial_sys stripped_so); vm_compute; reflexivity.
Defined.

(** A library that opens and exports a descriptor with the requested
    id: [load] returns 0 with the handle and the descriptor, calls
    [dlopen] and [dlsym] only, and leaves one more reference open, on
    that library. *)
Theorem load_success (w : world) (id_ path : string) (s : sys)
    (lib : library) (m : hw_module_t) :
  files w !! path = Some lib →
  exports lib !! HAL_MODULE_INFO_SYM_AS_STR = Some m →
  id m = id_ →
  load w id_ path s
    = ({| load_ret := 0; pHandle := Some lib; pHmi := Some m |},
       {| open := lib :: open s;
          trace := trace s ++ [dlopen_call path RTLD_NOW;
                               dlsym_call lib HAL_MODULE_INFO_SYM_AS_STR] |}).
Proof.
  intros Hlib Hsym Hid. rewrite load_run. unfold check, load_calls.
  rewrite Hlib, Hsym. by rewrite !decide_True.
Qed.

Lemma load_success_witness :
  load device "led" led_default_path initial_sys
    = ({| load_ret := 0; pHandle := Some led_default_so;
          pHmi := Some led_default_hmi |},
       {| open := [led_default_so];
          trace := [dlopen_call led_default_path RTLD_NOW;
                    dlsym_call led_default_so HAL_MODULE_INFO_SYM_AS_STR] |}).
Proof.
  apply (load_success device "led" led_default_path initial_sys
           led_default_so led_default_hmi); vm_compute; reflexivity.
Defined.

(** The handle a successful [load] hands out carries exactly the
    reference [load] took: one [dlclose] on it brings the open
    references back to what they were before [load]. *)
Theorem load_then_dlclose (w : world) (id_ path : string) (s : sys)
    (h : library) :
  pHandle (load w id_ path s).1 = Some h →
  open (dlclose h (load w id_ path s).2).2 = open s.
Proof.
  rewrite load_run.
  destruct (check w id_ path) as [e|[h' m]]; simpl; [discriminate|].
  intros [= ->]. by rewrite N.eqb_refl.
Qed.

Lemma load_then_dlclose_witness :
  open (dlclose led_default_so
          (load device "led" led_default_path initial_sys).2).2 = [].
Proof.
  apply (load_then_dlclose device "led" led_default_path initial_sys
           led_default_so).
  vm_compute. reflexivity.
Defined.

(** ** The search of [hw_get_module] *)

Lemma resolve_default (w : world) :
  resolve w HAL_DEFAULT_VARIANT = Some HAL_DEFAULT_VARIANT.
Proof. unfold resolve. by rewrite decide_True. Qed.

Lemma resolve_query (w : world) (key : string) :
  key ≠ HAL_DEFAULT_VARIANT →
  resolve w key =
    match props w !! key with
    | Some v => if decide (v = EmptyString) then None else Some v
    | None => None
    end.
Proof. intros H. unfold resolve. by rewrite decide_False. Qed.

Lemma resolve_Some_query (w : world) (key variant : string) :
  key ≠ HAL_DEFAULT_VARIANT →
  resolve w key = Some variant
  ↔ props w !! key = Some variant ∧ variant ≠ EmptyString.
Proof.
  intros H. rewrite resolve_query by done.
  destruct (props w !! key) as [v|].
  - destruct (decide (v = EmptyString)) as [E|E].
    + split; [discriminate|]. intros [[= <-] Hne]. by destruct Hne.
    + split; [by intros [= <-]|]. by intros [[= <-] _].
  - split; [discriminate|]. by intros [? _].
Qed.

Lemma check_inr_iff (w : world) (id_ path : string) (lib : library)
    (m : hw_module_t) :
  check w id_ path = inr (lib, m)
  ↔ files w !! path = Some lib
    ∧ exports lib !! HAL_MODULE_INFO_SYM_AS_STR = Some m
    ∧ id m = id_.
Proof.
  split; [apply check_inr|].
  intros (Hlib & Hm & Hid). unfold check. rewrite Hlib, Hm.
  by rewrite decide_True.
Qed.

Lemma first_success_Some_iff (w : world) (id_ : string) (keys : list string) :
  is_Some (first_success w id_ keys).1
  ↔ ∃ key variant hm,
      key ∈ keys ∧ resolve w key = Some variant
      ∧ check w id_ (candidate_path id_ variant) = inr hm.
Proof.
  induction keys as [|key keys IH]; cbn [first_success].
  - split; [by intros [x ?]|]. intros (k & _ & _ & H & _). by apply elem_of_nil in H.
  - destruct (resolve w key) as [variant|] eqn:R.
    + cbv zeta.
      destruct (check w id_ (candidate_path id_ variant)) as [e|hm] eqn:C.
      * destruct (first_success w id_ keys) as [o ps]; cbn [fst] in *.
        rewrite IH. split.
        -- intros (k & v & hm & Hin & ?). exists k, v, hm. split; [by right|done].
        -- intros (k & v & hm & Hin & Hr & Hc).
           apply elem_of_cons in Hin as [->|Hin]; [congruence|].
           by exists k, v, hm.
      * split; [|by eauto]. intros _. exists key, variant, hm.
        split; [by left|done].
    + rewrite IH. split.
      * intros (k & v & hm & Hin & ?). exists k, v, hm. split; [by right|done].
      * intros (k & v & hm & Hin & Hr & Hc).
        apply elem_of_cons in Hin as [->|Hin]; [congruence|].
        by exists k, v, hm.
Qed.

(** [hw_get_module] succeeds exactly when there is a valid candidate:
    a variant named by a non-empty "ro.product.board" or "ro.arch"
    property, or the default variant, whose file can be opened and
    exports a descriptor with the requested id. *)
Theorem success_iff_valid_candidate (w : world) (id_ : string) (s : sys) :
  ret (hw_get_module w id_ s).1 = 0
  ↔ ∃ variant lib m,
      ((props w !! "ro.product.board" = Some variant ∧ variant ≠ EmptyString)
       ∨ (props w !! "ro.arch" = Some variant ∧ variant ≠ EmptyString)
       ∨ variant = HAL_DEFAULT_VARIANT)
      ∧ files w !! candidate_path id_ variant = Some lib
      ∧ exports lib !! HAL_MODULE_INFO_SYM_AS_STR = Some m
      ∧ id m = id_.
Proof.
  rewrite hw_get_module_result.
  transitivity (is_Some (first_success w id_ variant_keys).1).
  { destruct (first_success w id_ variant_keys).1 as [[h m]|]; simpl.
    - split; eauto.
    - split; [discriminate|]. by intros [x ?]. }
  rewrite first_success_Some_iff. split.
  - intros (key & variant & [lib m] & Hin & Hr & Hc).
    exists variant, lib, m. apply check_inr_iff in Hc. split; [|done].
    unfold variant_keys in Hin.
    apply elem_of_cons in Hin as [->|Hin].
    { left. by apply resolve_Some_query in Hr. }
    apply elem_of_cons in Hin as [->|Hin].
    { right; left. by apply resolve_Some_query in Hr. }
    apply list_elem_of_singleton in Hin as ->.
    right; right. rewrite resolve_default in Hr. congruence.
  - intros (variant & lib & m & Hav & Hc).
    apply check_inr_iff in Hc.
    destruct Hav as [Hb|[Ha| ->]].
    + exists "ro.product.board", variant, (lib, m).
      split; [unfold variant_keys; rewrite !elem_of_cons; auto|]. split; [|done].
      by apply resolve_Some_query.
    + exists "ro.arch", variant, (lib, m).
      split; [unfold variant_keys; rewrite !elem_of_cons; auto|]. split; [|done].
      by apply resolve_Some_query.
    + exists HAL_DEFAULT_VARIANT, HAL_DEFAULT_VARIANT, (lib, m).
      split; [unfold variant_keys; rewrite !elem_of_cons; auto|]. split; [|done].
      apply resolve_default.
Qed.

Lemma success_iff_valid_candidate_witness :
  ret (hw_get_module device "led" initial_sys).1 = 0.
Proof.
  apply (proj2 (success_iff_valid_candidate device "led" initial_sys)).
  exists HAL_DEFAULT_VARIANT, led_default_so, led_default_hmi.
  split; [right; right; reflexivity|].
  vm_compute. repeat split.
Defined.

(** The statements after the loop never close anything: when the loop
    ends with a status other than 0 the variable [handle] is null, so
    the state is left as the loop left it and no handle is closed a
    second time. *)
Theorem cleanup_after_loop_is_idle (w : world) (id_ : string) (s : sys) :
  let r := scan w id_ variant_keys vars_init s in
  (status r.1 = 0 ∨ handle r.1 = None)
  ∧ (scan_done r.1 r.2).2 = r.2
  ∧ status (scan_done r.1 r.2).1 = status r.1.
Proof.
  cbv zeta. rewrite scan_spec.
  destruct (first_success w id_ variant_keys).1 as [[h m]|]; simpl; auto.
Qed.

Lemma attempted_is_candidate (w : world) (id_ : string) (keys : list string)
    (p : string) :
  p ∈ (first_success w id_ keys).2 → ∃ variant, p = candidate_path id_ variant.
Proof.
  induction keys as [|key keys IH]; cbn [first_success].
  - intros H. by apply elem_of_nil in H.
  - destruct (resolve w key) as [variant|]; [|done].
    cbv zeta.
    destruct (check w id_ (candidate_path id_ variant)) as [e|hm].
    + destruct (first_success w id_ keys) as [o ps]; cbn [fst snd] in *.
      intros H. apply elem_of_cons in H as [->|H]; eauto.
    + cbn [snd]. intros H. apply list_elem_of_singleton in H as ->. eauto.
Qed.

(** Every path [hw_get_module] hands to [dlopen] fits the [path]
    buffer, whatever the lengths of the id and of the property
    values, and there are at most [HAL_VARIANT_KEYS_COUNT] of them. *)
Theorem dlopen_paths_bounded (w : world) (id_ : string) (s : sys) :
  Forall (λ p, (String.length p < PATH_MAX)%nat)
    (attempts (calls (hw_get_module w id_) s))
  ∧ (length (attempts (calls (hw_get_module w id_) s))
     ≤ HAL_VARIANT_KEYS_COUNT)%nat.
Proof.
  rewrite hw_get_module_attempts. split.
  - apply Forall_forall. intros p Hp.
    apply attempted_is_candidate in Hp as [variant ->].
    apply candidate_path_length.
  - unfold variant_keys. cbn [first_success].
    destruct (resolve w "ro.product.board") as [v1|];
      [cbv zeta; destruct (check w id_ (candidate_path id_ v1))|];
      cbn [fst snd length]; try (unfold HAL_VARIANT_KEYS_COUNT; lia);
      (destruct (resolve w "ro.arch") as [v2|];
        [cbv zeta; destruct (check w id_ (candidate_path id_ v2))|]);
      cbn [fst snd length]; try (unfold HAL_VARIANT_KEYS_COUNT; lia);
      (destruct (resolve w HAL_DEFAULT_VARIANT) as [v3|];
        [cbv zeta; destruct (check w id_ (candidate_path id_ v3))|]);
      cbn [fst snd length]; unfold HAL_VARIANT_KEYS_COUNT; lia.
Qed.

Lemma queries_app (e1 e2 : list event) :
  queries (e1 ++ e2) = queries e1 ++ queries e2.
Proof.
  induction e1 as [|e e1 IH]; [reflexivity|].
  destruct e; simpl; by rewrite IH.
Qed.

Lemma queries_load_calls (w : world) (id_ path : string) :
  queries (load_calls w id_ path) = [].
Proof.
  unfold load_calls. cbn.
  destruct (files w !! path) as [lib|]; [|reflexivity]. cbn.
  destruct (exports lib !! _) as [m|]; [|reflexivity].
  by destruct (decide _).
Qed.

Lemma queries_consult (key : string) :
  queries (consult key)
    = if decide (key = HAL_DEFAULT_VARIANT) then [] else [key].
Proof. unfold consult. by destruct (decide _). Qed.

Lemma queries_search_cons (w : world) (id_ key : string)
    (keys : list string) :
  queries (search_calls w id_ (key :: keys))
    = (if decide (key = HAL_DEFAULT_VARIANT) then [] else [key])
      ++ match resolve w key with
         | None => queries (search_calls w id_ keys)
         | Some variant =>
             match check w id_ (candidate_path id_ variant) with
             | inr _ => []
             | inl _ => queries (search_calls w id_ keys)
             end
         end.
Proof.
  cbn [search_calls]. rewrite queries_app, queries_consult. f_equal.
  destruct (resolve w key) as [variant|]; [|done].
  cbv zeta. rewrite queries_app, queries_load_calls.
  by destruct (check w id_ (candidate_path id_ variant)).
Qed.

(** The only keys [hw_get_module] asks the configuration store for
    are "ro.product.board" and then "ro.arch", each at most once and
    in that order; the default entry is never looked up in the
    store. *)
Theorem store_queries (w : world) (id_ : string) (s : sys) :
  queries (calls (hw_get_module w id_) s) = ["ro.product.board"]
  ∨ queries (calls (hw_get_module w id_) s) = ["ro.product.board"; "ro.arch"].
Proof.
  rewrite hw_get_module_calls. unfold variant_keys.
  rewrite !queries_search_cons. cbn [search_calls queries].
  rewrite (decide_False (P := "ro.product.board" = HAL_DEFAULT_VARIANT))
    by discriminate.
  rewrite (decide_False (P := "ro.arch" = HAL_DEFAULT_VARIANT))
    by discriminate.
  rewrite (decide_True (P := HAL_DEFAULT_VARIANT = HAL_DEFAULT_VARIANT))
    by done.
  assert (match resolve w HAL_DEFAULT_VARIANT with
          | Some variant =>
              match check w id_ (candidate_path id_ variant) with
              | inl _ | _ => @nil string
              end
          | None => []
          end = []) as D.
  { destruct (resolve w HAL_DEFAULT_VARIANT) as [v|]; [|done].
    by destruct (check w id_ (candidate_path id_ v)). }
  cbn [app]. rewrite D.
  destruct (resolve w "ro.product.board") as [v1|];
    [destruct (check w id_ (candidate_path id_ v1)); [|by left]|];
    right; f_equal;
    (destruct (resolve w "ro.arch") as [v2|];
      [by destruct (check w id_ (candidate_path id_ v2))|done]).
Qed.

Lemma load_calls_dlopen (w : world) (id_ path : string) :
  dlopen_call path RTLD_NOW ∈ load_calls w id_ path.
Proof. unfold load_calls. by left. Qed.

Lemma load_calls_handles (w : world) (id_ path : string) (h : library) :
  (dlclose_call h ∈ load_calls w id_ path
   ∨ ∃ sym, dlsym_call h sym ∈ load_calls w id_ path) →
  files w !! path = Some h.
Proof.
  unfold load_calls.
  destruct (files w !! path) as [lib|].
  - destruct (exports lib !! HAL_MODULE_INFO_SYM_AS_STR) as [m|];
      [destruct (decide (id m = id_))|];
      intros [H|[sym H]];
      repeat (apply elem_of_cons in H as [H|H]; [by inversion H|]);
      by apply elem_of_nil in H.
  - intros [H|[sym H]];
      repeat (apply elem_of_cons in H as [H|H]; [by inversion H|]);
      by apply elem_of_nil in H.
Qed.

Lemma consult_no_handles (key : string) (e : event) :
  e ∈ consult key → e = property_get_call key.
Proof.
  unfold consult. destruct (decide _); intros H.
  - by apply elem_of_nil in H.
  - by apply list_elem_of_singleton in H.
Qed.

Lemma search_calls_handles (w : world) (id_ : string) (keys : list string)
    (h : library) :
  (dlclose_call h ∈ search_calls w id_ keys
   ∨ ∃ sym, dlsym_call h sym ∈ search_calls w id_ keys) →
  ∃ p, files w !! p = Some h
       ∧ dlopen_call p RTLD_NOW ∈ search_calls w id_ keys.
Proof.
  induction keys as [|key keys IH]; cbn [search_calls].
  - intros [H|[sym H]]; by apply elem_of_nil in H.
  - intros H.
    assert (∀ rest : list event,
              (dlclose_call h ∈ consult key ++ rest
               ∨ ∃ sym, dlsym_call h sym ∈ consult key ++ rest) →
              dlclose_call h ∈ rest ∨ ∃ sym, dlsym_call h sym ∈ rest) as Skip.
    { intros rest [K|[sym K]]; apply elem_of_app in K as [K|K];
        try (apply consult_no_handles in K; discriminate); eauto. }
    apply Skip in H. clear Skip.
    destruct (resolve w key) as [variant|].
    + cbv zeta in *.
      set (p := candidate_path id_ variant) in *.
      assert (dlclose_call h ∈ load_calls w id_ p
              ∨ (∃ sym, dlsym_call h sym ∈ load_calls w id_ p)
              ∨ (match check w id_ p with
                 | inl _ => dlclose_call h ∈ search_calls w id_ keys
                            ∨ ∃ sym, dlsym_call h sym ∈ search_calls w id_ keys
                 | inr _ => False
                 end)) as Cases.
      { destruct (check w id_ p);
          destruct H as [K|[sym K]]; apply elem_of_app in K as [K|K];
          eauto; by apply elem_of_nil in K. }
      destruct Cases as [K|[K|K]].
      * exists p. split; [apply (load_calls_handles w id_); by left|].
        apply elem_of_app; right. apply elem_of_app; left.
        apply load_calls_dlopen.
      * exists p. split; [apply (load_calls_handles w id_); by right|].
        apply elem_of_app; right. apply elem_of_app; left.
        apply load_calls_dlopen.
      * destruct (check w id_ p); [|done].
        destruct (IH K) as (q & Hq & Hin). exists q. split; [done|].
        apply elem_of_app; right. apply elem_of_app; by right.
    + destruct (IH H) as (q & Hq & Hin). exists q. split; [done|].
      apply elem_of_app; by right.
Qed.

(** [hw_get_module] passes to [dlsym] and to [dlclose] only handles
    that [dlopen] returned during the same call: a library held open
    by somebody else is never looked into or closed. *)
Theorem handles_used_were_opened (w : world) (id_ : string) (s : sys)
    (h : library) :
  (dlclose_call h ∈ calls (hw_get_module w id_) s
   ∨ ∃ sym, dlsym_call h sym ∈ calls (hw_get_module w id_) s) →
  ∃ p, files w !! p = Some h
       ∧ dlopen_call p RTLD_NOW ∈ calls (hw_get_module w id_) s.
Proof. rewrite hw_get_module_calls. apply search_calls_handles. Qed.

Lemma handles_used_were_opened_witness :
  ∃ p, files device !! p = Some led_trout_so
       ∧ dlopen_call p RTLD_NOW ∈ calls (hw_get_module device "led") initial_sys.
Proof.
  apply (handles_used_were_opened device "led" initial_sys led_trout_so).
  left. vm_compute. do 3 right. left.
Defined.

(** When [hw_get_module] fails, the last file it tried is the default
    variant: the fallback entry is always reached before giving up. *)
Theorem failure_tried_default_last (w : world) (id_ : string) (s : sys) :
  ret (hw_get_module w id_ s).1 ≠ 0 →
  last (attempts (calls (hw_get_module w id_) s))
    = Some (candidate_path id_ HAL_DEFAULT_VARIANT)
  ∧ ∃ cause,
      check w id_ (candidate_path id_ HAL_DEFAULT_VARIANT) = inl cause.
Proof.
  rewrite hw_get_module_result, hw_get_module_attempts.
  unfold variant_keys. cbn [first_success]. rewrite resolve_default.
  cbv zeta. intros H.
  destruct (resolve w "ro.product.board") as [v1|];
    [destruct (check w id_ (candidate_path id_ v1)) as [?|[??]]|];
    (destruct (resolve w "ro.arch") as [v2|];
      [destruct (check w id_ (candidate_path id_ v2)) as [?|[??]]|]);
    destruct (check w id_ (candidate_path id_ HAL_DEFAULT_VARIANT))
      as [?|[??]];
    cbn [fst snd result_of ret] in *;
    try (by destruct H);
    (split; [reflexivity|by eauto]).
Qed.

Lemma failure_tried_default_last_witness :
  last (attempts (calls (hw_get_module device "lights") initial_sys))
    = Some (candidate_path "lights" HAL_DEFAULT_VARIANT)
  ∧ ∃ cause,
      check device "lights" (candidate_path "lights" HAL_DEFAULT_VARIANT)
        = inl cause.
Proof.
  apply (failure_tried_default_last device "lights" initial_sys).
  vm_compute. discriminate.
Defined.

(** On a device where neither "ro.product.board" nor "ro.arch" is set
    to a non-empty value, [hw_get_module] is one [load] of the default
    variant after the two queries of the store: same status, same
    descriptor, same final state. *)
Theorem neither_property_set (w : world) (id_ : string) (s : sys) :
  props w !! "ro.product.board" = None
    ∨ props w !! "ro.product.board" = Some EmptyString →
  props w !! "ro.arch" = None ∨ props w !! "ro.arch" = Some EmptyString →
  let r := load w id_ (candidate_path id_ HAL_DEFAULT_VARIANT)
             (after s [property_get_call "ro.product.board";
                       property_get_call "ro.arch"]) in
  hw_get_module w id_ s
    = ({| ret := load_ret r.1; module := pHmi r.1 |}, r.2).
Proof.
  intros Hb Ha. cbv zeta.
  assert (resolve w "ro.product.board" = None) as Rb.
  { rewrite resolve_query by discriminate. by destruct Hb as [-> | ->]. }
  assert (resolve w "ro.arch" = None) as Ra.
  { rewrite resolve_query by discriminate. by destruct Ha as [-> | ->]. }
  rewrite hw_get_module_run, load_run.
  unfold variant_keys. cbn [first_success search_calls].
  rewrite Rb, Ra, resolve_default. cbv zeta.
  unfold consult.
  rewrite (decide_False (P := "ro.product.board" = HAL_DEFAULT_VARIANT))
    by discriminate.
  rewrite (decide_False (P := "ro.arch" = HAL_DEFAULT_VARIANT))
    by discriminate.
  rewrite (decide_True (P := HAL_DEFAULT_VARIANT = HAL_DEFAULT_VARIANT))
    by done.
  destruct (check w id_ (candidate_path id_ HAL_DEFAULT_VARIANT))
    as [cause|[h m]]; cbn; rewrite ?app_nil_r; by rewrite <- ?app_assoc.
Qed.

Lemma neither_property_set_witness :
  hw_get_module device_stripped "led" initial_sys
    = ({| ret := - EINVAL; module := None |},
       after initial_sys
         [property_get_call "ro.product.board";
          property_get_call "ro.arch";
          dlopen_call led_default_path RTLD_NOW;
          dlsym_call stripped_so HAL_MODULE_INFO_SYM_AS_STR;
          dlerror_call;
          dlclose_call stripped_so]).
Proof.
  pose proof (neither_property_set device_stripped "led" initial_sys) as H.
  cbv zeta in H. rewrite H.
  - vm_compute. reflexivity.
  - left. vm_compute. reflexivity.
  - left. vm_compute. reflexivity.
Defined.

(** ** What the search depends on *)

Lemma check_ext (w w' : world) (id_ path : string) :
  files w !! path = files w' !! path →
  check w id_ path = check w' id_ path ∧ load_calls w id_ path = load_calls w' id_ path.
Proof. intros H. unfold check, load_calls. by rewrite H. Qed.

(** Two worlds that resolve the entries alike and hold the same
    candidate files are searched alike. *)
Lemma search_ext (w w' : world) (id_ : string) (keys : list string) :
  (∀ key, key ∈ keys → resolve w key = resolve w' key) →
  (∀ variant, files w !! candidate_path id_ variant
              = files w' !! candidate_path id_ variant) →
  first_success w id_ keys = first_success w' id_ keys
  ∧ search_calls w id_ keys = search_calls w' id_ keys.
Proof.
  intros Hr Hf. induction keys as [|key keys IH]; [done|].
  cbn [first_success search_calls].
  rewrite <- (Hr key) by (by left).
  destruct IH as [IH1 IH2].
  { intros k Hk. apply Hr. by right. }
  rewrite <- IH1, <- IH2.
  destruct (resolve w key) as [variant|]; [|done].
  cbv zeta.
  destruct (check_ext w w' id_ (candidate_path id_ variant) (Hf variant))
    as [<- <-].
  done.
Qed.

Lemma hw_get_module_ext (w w' : world) (id_ : string) (s : sys) :
  (∀ key, key ∈ variant_keys → resolve w key = resolve w' key) →
  (∀ variant, files w !! candidate_path id_ variant
              = files w' !! candidate_path id_ variant) →
  hw_get_module w id_ s = hw_get_module w' id_ s.
Proof.
  intros Hr Hf. rewrite !hw_get_module_run.
  by destruct (search_ext w w' id_ variant_keys Hr Hf) as [<- <-].
Qed.

(** [hw_get_module] reads two properties only: setting or changing
    any other key of the configuration store changes neither its
    result nor the calls it makes. *)
Theorem other_properties_ignored (w : world) (id_ key value : string)
    (s : sys) :
  key ≠ "ro.product.board" →
  key ≠ "ro.arch" →
  hw_get_module (with_props w (<[key := value]> (props w))) id_ s
    = hw_get_module w id_ s.
Proof.
  intros Hb Ha. apply hw_get_module_ext; [|done].
  intros k Hk. unfold resolve, with_props; cbn [props].
  destruct (decide (k = HAL_DEFAULT_VARIANT)); [done|].
  rewrite lookup_insert_ne; [done|].
  unfold variant_keys in Hk. rewrite !elem_of_cons in Hk.
  destruct Hk as [-> | [-> | [-> | Hk]]]; try done.
  by apply elem_of_nil in Hk.
Qed.

Lemma other_properties_ignored_witness :
  hw_get_module
    (with_props device (<["ro.hardware" := "trout"]> (props device)))
    "led" initial_sys
  = hw_get_module device "led" initial_sys.
Proof.
  apply (other_properties_ignored device "led" "ro.hardware" "trout"
           initial_sys); discriminate.
Defined.

(** A property set to the empty string counts as a property that is
    not set: for any key, storing the empty value and removing the key
    give the same result, the same calls and the same open
    references. *)
Theorem empty_property_is_absent (w : world) (id_ key : string) (s : sys) :
  hw_get_module (with_props w (<[key := EmptyString]> (props w))) id_ s
    = hw_get_module (with_props w (delete key (props w))) id_ s.
Proof.
  apply hw_get_module_ext; [|done].
  intros k _. unfold resolve, with_props; cbn [props].
  destruct (decide (k = HAL_DEFAULT_VARIANT)); [done|].
  destruct (decide (key = k)) as [->|Hne].
  - by rewrite lookup_insert_eq, lookup_delete_eq.
  - by rewrite lookup_insert_ne, lookup_delete_ne.
Qed.



(** ** Repeated calls *)

Lemma join_replicate_comm {A : Type} (n : nat) (x : list A) :
  mjoin (replicate n x) ++ x = x ++ mjoin (replicate n x).
Proof.
  induction n as [|n IH]; [cbn; by rewrite app_nil_r|].
  change (mjoin (replicate (S n) x)) with (x ++ mjoin (replicate n x)).
  by rewrite <- app_assoc, IH.
Qed.

Lemma hw_get_module_times_run (w : world) (id_ : string) (n : nat) (s : sys) :
  hw_get_module_times w id_ n s
    = (replicate n (result_of (first_success w id_ variant_keys).1),
       {| open := mjoin (replicate n (opened (first_success w id_ variant_keys).1))
                  ++ open s;
          trace := trace s
                   ++ mjoin (replicate n (search_calls w id_ variant_keys)) |}).
Proof.
  revert s. induction n as [|n IH]; intros s.
  - cbn. f_equal. destruct s as [o t]; cbn. by rewrite app_nil_r.
  - cbn [hw_get_module_times]. unfold mbind at 1, M_bind at 1.
    rewrite hw_get_module_run. unfold mbind, M_bind. rewrite IH.
    change (mjoin (replicate (S n) ?x)) with (x ++ mjoin (replicate n x)).
    cbn [replicate fst snd open trace].
    rewrite <- !app_assoc. unfold mret, M_ret. f_equal. f_equal.
    by rewrite !app_assoc, join_replicate_comm.
Qed.

(** Calling [hw_get_module] [n] times for the same id gives the same
    result [n] times, and the references add up: each successful call
    leaves one more reference open on the library found (nothing in
    [hw_get_module] ever releases it), a failed call leaves none. *)
Theorem references_accumulate (w : world) (id_ : string) (n : nat) (s : sys) :
  (hw_get_module_times w id_ n s).1 = replicate n (hw_get_module w id_ s).1
  ∧ length (open (hw_get_module_times w id_ n s).2)
    = ((if bool_decide (ret (hw_get_module w id_ s).1 = 0%Z) then n else 0)
       + length (open s))%nat.
Proof.
  rewrite hw_get_module_times_run, hw_get_module_result. split; [done|].
  cbn [snd open]. rewrite length_app. f_equal.
  destruct (first_success w id_ variant_keys).1 as [[h m]|];
    cbn [result_of ret opened].
  - rewrite bool_decide_eq_true_2 by done.
    induction n as [|n IH]; [done|].
    change (mjoin (replicate (S n) [h])) with (h :: mjoin (replicate n [h])).
    cbn [length]. by rewrite IH.
  - rewrite bool_decide_eq_false_2 by done.
    induction n as [|n IH]; [done|].
    change (mjoin (replicate (S n) (@nil library)))
      with (mjoin (replicate n (@nil library))).
    exact IH.
Qed.

(** ** Over-long ids *)

Lemma append_assoc (s1 s2 s3 : string) :
  (s1 +:+ s2) +:+ s3 = s1 +:+ s2 +:+ s3.
Proof.
  induction s1 as [|c s1 IH]; [reflexivity|].
  change (String c ((s1 +:+ s2) +:+ s3) = String c (s1 +:+ s2 +:+ s3)).
  by rewrite IH.
Qed.

Lemma substring_0_append (n : nat) (s1 s2 : string) :
  (n ≤ String.length s1)%nat →
  String.substring 0 n (s1 +:+ s2) = String.substring 0 n s1.
Proof.
  revert s1; induction n as [|n IH]; intros [|c s1] H.
  - by destruct s2.
  - reflexivity.
  - cbn in H. lia.
  - change (String c (String.substring 0 n (s1 +:+ s2))
            = String c (String.substring 0 n s1)).
    f_equal. apply IH. cbn in H. lia.
Qed.

(** An id so long that the directory and the id alone fill the [path]
    buffer hides the variant: every entry then gives the same candidate
    path, cut off before the variant and the ".so" suffix, so the
    board, architecture and default entries all name one file. *)
Theorem overlong_id_hides_variant (id_ v1 v2 : string) :
  (PATH_MAX ≤ String.length id_ + 16)%nat →
  candidate_path id_ v1 = candidate_path id_ v2.
Proof.
  intros H. unfold candidate_path, snprintf_path, truncate.
  assert (∀ v, HAL_LIBRARY_PATH +:+ "/" +:+ id_ +:+ "." +:+ v +:+ ".so"
               = (HAL_LIBRARY_PATH +:+ "/" +:+ id_) +:+ "." +:+ v +:+ ".so")
    as Split.
  { intros v. by rewrite !append_assoc. }
  assert (PATH_MAX - 1 ≤ String.length (HAL_LIBRARY_PATH +:+ "/" +:+ id_))%nat
    as Long.
  { rewrite !length_append. unfold HAL_LIBRARY_PATH, PATH_MAX in *. cbn. lia. }
  rewrite (Split v1), (Split v2).
  rewrite (substring_0_append _ _ ("." +:+ v1 +:+ ".so") Long).
  by rewrite (substring_0_append _ _ ("." +:+ v2 +:+ ".so") Long).
Qed.

Lemma overlong_id_hides_variant_witness :
  candidate_path (string_of 4080 (Ascii.ascii_of_nat 97)) "trout"
    = candidate_path (string_of 4080 (Ascii.ascii_of_nat 97)) HAL_DEFAULT_VARIANT.
Proof.
  apply (overlong_id_hides_variant (string_of 4080 (Ascii.ascii_of_nat 97)) "trout"
           HAL_DEFAULT_VARIANT).
  vm_compute. lia.
Defined.
